(** * control-flag: [src/common_util.h]

    A shallow embedding of the header shared by the ControlFlag tools: the
    exception classes and the [cf_assert] guard, the memory-managed
    tree-sitter tree ([ManagedTSTree]), the parser and collector entry points
    it declares, and the microsecond [Timer].

    Conventions.
    - [long] ([time_t], [suseconds_t]) is the 64-bit two's-complement integer
      of an LP64 platform, kept as a [Z] with the wrap-around written out
      ([wrap64]).
    - C++ [/] and [%] truncate towards zero: [Z.quot] and [Z.rem].
    - Code that throws or calls into tree-sitter runs in the monad [M]: a
      computation returns, throws a [cf_exception], or has undefined
      behaviour.  The calls made into the external library are recorded, in
      order, in the [calls] component of the state.
    - What the header only consumes (tree-sitter, the file system, the
      clock, [parser.h]'s [Language]) is a parameter of the development. *)

From Stdlib Require Import ZArith Lia List Ascii.
From stdpp Require Import base strings list pretty gmap.

Local Open Scope Z_scope.

(** ** Machine integers *)

Definition INT64_MIN : Z := - 2 ^ 63.
Definition INT64_MAX : Z := 2 ^ 63 - 1.

Definition wrap64 (z : Z) : Z := (z + 2 ^ 63) mod 2 ^ 64 - 2 ^ 63.

Definition int64 (z : Z) : Prop := INT64_MIN <= z <= INT64_MAX.

Definition add64 (a b : Z) : Z := wrap64 (a + b).
Definition sub64 (a b : Z) : Z := wrap64 (a - b).
Definition mul64 (a b : Z) : Z := wrap64 (a * b).
Definition div64 (a b : Z) : Z := wrap64 (Z.quot a b).
Definition rem64 (a b : Z) : Z := wrap64 (Z.rem a b).

(** ** Exceptions

    [cf_string_exception] stores [message_]; the three derived classes only
    prefix the string they are constructed from.  An exception object is its
    dynamic class together with the stored message. *)

Inductive cf_exception_class : Type :=
  | class_cf_string_exception
  | class_cf_file_access_exception
  | class_cf_parse_error
  | class_cf_unexpected_situation.

Record cf_exception : Type := mk_exception
  { exception_class : cf_exception_class;
    message_ : string }.


Definition cf_file_access_exception (error : string) : cf_exception :=
  mk_exception class_cf_file_access_exception ("File access failed: " +:+ error).

Definition cf_parse_error (expression : string) : cf_exception :=
  mk_exception class_cf_parse_error ("Parse error in expression:" +:+ expression).

Definition cf_unexpected_situation (error : string) : cf_exception :=
  mk_exception class_cf_unexpected_situation ("Assert failed: " +:+ error).

(** The text of a [const char*] that points at the characters of a string:
    it ends before the first NUL. *)
Fixpoint c_str (s : string) : string :=
  match s with
  | EmptyString => EmptyString
  | String c rest => if Ascii.eqb c "000" then EmptyString else String c (c_str rest)
  end.

Fixpoint has_nul (s : string) : bool :=
  match s with
  | EmptyString => false
  | String c rest => Ascii.eqb c "000" || has_nul rest
  end.

(** [what()] returns [message_.c_str()]. *)
Definition what (e : cf_exception) : string := c_str (message_ e).

(** ** Trees and nodes of the external library

    A [TSTree] is named by the address tree-sitter allocated it at; a
    [TSTree*] is [None] for [nullptr].  A [TSNode] is a handle into a tree:
    it is kept as the subtree it designates, with the grammar symbol, the
    byte offset it starts at and the tree it belongs to. *)

Definition TSTree : Type := positive.
Bind Scope positive_scope with TSTree.
Definition TSTree_ptr : Type := option TSTree.

#[warnings="-register-all"]
Inductive TSNode : Type :=
  ts_node (tree : TSTree) (symbol : N) (start_byte : N) (children : list TSNode).

Definition ts_node_tree (n : TSNode) : TSTree :=
  match n with ts_node t _ _ _ => t end.
Definition ts_node_symbol (n : TSNode) : N :=
  match n with ts_node _ s _ _ => s end.
Definition ts_node_children (n : TSNode) : list TSNode :=
  match n with ts_node _ _ _ c => c end.

Definition code_block_t : Type := TSNode.
Definition code_blocks_t : Type := list TSNode.

(** What [common_util.h] consumes.  [world] is the state of everything
    outside: the trees tree-sitter has allocated, the files.  An operation
    that answers [None] was used outside its contract (a node of a deleted
    tree, a tree deleted twice): undefined behaviour.  The parser answers
    [nullptr] when it produces no tree.  [Language] is the enumeration of
    [parser.h].  The buffer [ts_node_string] allocates for its answer is not
    part of [world]. *)

Class External : Type := {
  world : Type;
  Language : Type;
  ts_parser_parse_string : Language -> string -> world -> TSTree_ptr * world;
  ts_tree_delete : TSTree_ptr -> world -> option world;
  ts_tree_root_node : TSTree -> world -> option TSNode;
  ts_node_has_error : TSNode -> world -> option bool;
  ts_node_string : TSNode -> world -> option string;
  read_file : string -> world -> string + string
}.

(** ** The monad of throwing, calling code *)

Inductive call : Type :=
  | call_ts_parser_parse_string (source_code : string)
  | call_ts_tree_delete (tree : TSTree_ptr)
  | call_ts_tree_root_node (tree : TSTree)
  | call_ts_node_has_error (node : TSNode)
  | call_ts_node_string (node : TSNode)
  | call_read_file (source_file : string).

Section Monad.
Context `{E : External}.

Record state : Type := mk_state
  { outside : world;
    calls : list call }.

Inductive result (A : Type) : Type :=
  | Returns (a : A) (s : state)
  | Throws (e : cf_exception) (s : state)
  | Undefined.

Definition M (A : Type) : Type := state -> result A.

Definition ret {A} (a : A) : M A := fun s => Returns A a s.

Definition throw {A} (e : cf_exception) : M A := fun s => Throws A e s.

Definition bind {A B} (m : M A) (k : A -> M B) : M B :=
  fun s =>
    match m s with
    | Returns _ a s' => k a s'
    | Throws _ e s' => Throws B e s'
    | Undefined _ => Undefined B
    end.

(** A call that only reads the outside world. *)
Definition extern_read {A} (c : call) (f : world -> option A) : M A :=
  fun s =>
    match f (outside s) with
    | Some a => Returns A a (mk_state (outside s) (calls s ++ [c]))
    | None => Undefined A
    end.

(** A call that may change it. *)
Definition extern_write {A} (c : call) (f : world -> option (A * world)) : M A :=
  fun s =>
    match f (outside s) with
    | Some (a, w) => Returns A a (mk_state w (calls s ++ [c]))
    | None => Undefined A
    end.

End Monad.

Arguments Returns {E A} a s.
Arguments Throws {E A} e s.
Arguments Undefined {E A}.

Declare Scope cf_scope.
Delimit Scope cf_scope with cf.
Notation "x <- m ;; k" := (bind m (fun x => k))
  (at level 100, m at next level, right associativity) : cf_scope.
Notation "m ;;; k" := (bind m (fun _ => k))
  (at level 100, right associativity) : cf_scope.

Local Open Scope cf_scope.

Section Code.
Context `{E : External}.

(** ** [cf_assert] *)

Definition cf_assert (value : bool) (message : string) : M unit :=
  if Bool.eqb value false then throw (cf_unexpected_situation message) else ret tt.

(** The overload with a node.  The argument [message + ts_node_string(node)]
    is evaluated before the two-argument overload is entered. *)
Definition cf_assert_node (value : bool) (message : string) (node : TSNode) : M unit :=
  text <- extern_read (call_ts_node_string node) (ts_node_string node) ;;
  cf_assert value (message +:+ text).

(** ** [ManagedTSTree]

    [std::unique_ptr<TSTree, TSTreeDeleter>]: the holder is the stored
    pointer.  The destructor and [reset()] follow [unique.ptr.single]: the
    deleter runs only on a stored pointer that is not [nullptr].  The
    destructor leaves the holder empty, as libstdc++ does. *)

Definition TSTreeDeleter (tree : TSTree_ptr) : M unit :=
  extern_write (call_ts_tree_delete tree)
    (fun w => match ts_tree_delete tree w with
              | Some w' => Some (tt, w')
              | None => None
              end).

Record ManagedTSTree : Type := unique_ptr { get : TSTree_ptr }.

(** [~unique_ptr()] *)
Definition destroy (p : ManagedTSTree) : M ManagedTSTree :=
  match get p with
  | Some t => TSTreeDeleter (Some t) ;;; ret (unique_ptr None)
  | None => ret (unique_ptr None)
  end.

(** [reset()]: the stored pointer is replaced by [nullptr] and the old one,
    when not [nullptr], is handed to the deleter. *)
Definition reset (p : ManagedTSTree) : M ManagedTSTree :=
  let old_p := get p in
  let p' := unique_ptr None in
  match old_p with
  | Some t => TSTreeDeleter (Some t) ;;; ret p'
  | None => ret p'
  end.

(** [release()]: gives the pointer up without deleting. *)
Definition release (p : ManagedTSTree) : TSTree_ptr * ManagedTSTree :=
  (get p, unique_ptr None).

(** Move construction: the new holder, then the moved-from one. *)
Definition move (p : ManagedTSTree) : ManagedTSTree * ManagedTSTree :=
  let (ptr, p') := release p in (unique_ptr ptr, p').

(** The number of [ts_tree_delete] calls in a record of calls. *)
Definition is_tree_delete (c : call) : bool :=
  match c with call_ts_tree_delete _ => true | _ => false end.

Definition deletions (cs : list call) : nat :=
  length (List.filter is_tree_delete cs).

End Code.

(** ** The entry points the header declares

    [GetTSTree] and [CollectCodeBlocksOfInterest] are declared in
    [common_util.h] and defined in [common_util.cc].  What their description
    leaves open is a variable of this section: the per-grammar interest
    predicate, the flag the file overload forwards, and the text of the
    guard's message. *)

Section Declared.
Context `{E : External}.

Variable interest : Language -> TSNode -> bool.
Variable forwarded_report_parse_errors : bool.
Variable absent_tree_message : string.

(** Modelled from the spec: the body of [GetTSTree(source_code,
    report_parse_errors)] is missing.  It invokes the external engine
    configured for the grammar, whose parse operation returns a tree or
    fails; when the engine produces no usable tree it fails with a parse
    failure.  If [report_parse_errors] is true and the resulting tree
    contains error nodes it fails with a parse failure identifying the
    offending fragment; if false it returns the tree without inspection.
    The parse failure carries the text that was handed in, the [expression]
    of [cf_parse_error]'s constructor; the tree that is not returned is
    released by its holder before the failure leaves. *)
Definition GetTSTree_string (L : Language) (source_code : string)
    (report_parse_errors : bool) : M ManagedTSTree :=
  tree <- extern_write (call_ts_parser_parse_string source_code)
            (fun w => Some (ts_parser_parse_string L source_code w)) ;;
  match tree with
  | None => throw (cf_parse_error source_code)
  | Some t =>
      if report_parse_errors then
        root <- extern_read (call_ts_tree_root_node t) (ts_tree_root_node t) ;;
        has_error <- extern_read (call_ts_node_has_error root) (ts_node_has_error root) ;;
        if has_error
        then _ <- destroy (unique_ptr (Some t)) ;; throw (cf_parse_error source_code)
        else ret (unique_ptr (Some t))
      else ret (unique_ptr (Some t))
  end.


(** Modelled from the spec: the body of [GetTSTree(source_file,
    source_file_contents)] is missing.  It reads the file fully into memory,
    fails with a file-access failure if the read fails, and otherwise
    delegates to the string-based entry point; the contents are returned
    beside the tree. *)
Definition GetTSTree_file (L : Language) (source_file : string)
    : M (ManagedTSTree * string) :=
  read <- extern_read (call_read_file source_file)
            (fun w => Some (read_file source_file w)) ;;
  match read with
  | inl error => throw (cf_file_access_exception error)
  | inr source_file_contents =>
      tree <- GetTSTree_string L source_file_contents forwarded_report_parse_errors ;;
      ret (tree, source_file_contents)
  end.

(** Modelled from the spec: the body of [CollectCodeBlocksOfInterest(root_node,
    code_blocks)] is missing.  It traverses the subtree rooted at the node in
    pre-order, depth first, and appends every node matching the grammar's
    interest predicate to the sequence, in traversal order. *)
Fixpoint CollectCodeBlocksOfInterest (G : Language) (root_node : TSNode)
    (code_blocks : code_blocks_t) : code_blocks_t :=
  match root_node with
  | ts_node _ _ _ children =>
      let code_blocks :=
        if interest G root_node then code_blocks ++ [root_node] else code_blocks in
      fold_left (fun blocks child => CollectCodeBlocksOfInterest G child blocks)
        children code_blocks
  end.

(** Modelled from the spec: the body of [CollectCodeBlocksOfInterest(tree,
    code_blocks)] is missing.  It obtains the root of the managed tree and
    performs the same traversal; an absent tree fails through the guard. *)
Definition CollectCodeBlocksOfInterest_tree (G : Language) (tree : ManagedTSTree)
    (code_blocks : code_blocks_t) : M code_blocks_t :=
  match get tree with
  | None => cf_assert false absent_tree_message ;;; ret code_blocks
  | Some t =>
      root_node <- extern_read (call_ts_tree_root_node t) (ts_tree_root_node t) ;;
      ret (CollectCodeBlocksOfInterest G root_node code_blocks)
  end.

(** The state after the parse call, after the two calls that inspect the
    tree, and after the tree that had an error was deleted. *)
Definition parsed (L : Language) (source_code : string) (s : state) : state :=
  mk_state (ts_parser_parse_string L source_code (outside s)).2
    (calls s ++ [call_ts_parser_parse_string source_code]).

Definition inspected (tree : TSTree) (root : TSNode) (s : state) : state :=
  mk_state (outside s)
    ((calls s ++ [call_ts_tree_root_node tree]) ++ [call_ts_node_has_error root]).

Definition rejected (tree : TSTree) (root : TSNode) (w : world) (s : state) : state :=
  mk_state w (calls (inspected tree root s) ++ [call_ts_tree_delete (Some tree)]).

(** The state after a file was read. *)
Definition file_read (source_file : string) (s : state) : state :=
  mk_state (outside s) (calls s ++ [call_read_file source_file]).

(** The nodes of a subtree in pre-order, and the number of them of interest. *)
Fixpoint preorder (n : TSNode) : list TSNode :=
  match n with
  | ts_node _ _ _ children => n :: flat_map preorder children
  end.

Fixpoint count_of_interest (G : Language) (n : TSNode) : nat :=
  match n with
  | ts_node _ _ _ children =>
      ((if interest G n then 1 else 0)
       + fold_right (fun child k => count_of_interest G child + k) 0 children)%nat
  end.

End Declared.

(** ** [class Timer] *)

Record timeval : Type := mk_timeval { tv_sec : Z; tv_usec : Z }.

Record timezone : Type := mk_timezone { tz_minuteswest : Z; tz_dsttime : Z }.

Record Timer : Type := mk_Timer { start_tv_ : timeval; end_tv_ : timeval }.

Section TimerClock.

(** The system clock.  [gettimeofday tv tz c] is given what [*tv] holds and
    answers the return code, what [*tv] holds afterwards, and the clock
    afterwards. *)
Variable clock : Type.
Variable gettimeofday : timeval -> option timezone -> clock -> Z * timeval * clock.

Definition StartTimer (t : Timer) (c : clock) : Z * Timer * clock :=
  let tz : option timezone := None in
  let '(rc, tv, c') := gettimeofday (start_tv_ t) tz c in
  (rc, mk_Timer tv (end_tv_ t), c').

Definition StopTimer (t : Timer) (c : clock) : Z * Timer * clock :=
  let tz : option timezone := None in
  let '(rc, tv, c') := gettimeofday (end_tv_ t) tz c in
  (rc, mk_Timer (start_tv_ t) tv, c').

End TimerClock.

Definition kMicroSecs : Z := 1000000.

Definition timeval2microsec (tv : timeval) : Z :=
  add64 (mul64 (tv_sec tv) kMicroSecs) (tv_usec tv).

Definition TimerDiffToTimeval (t : Timer) : timeval :=
  let diff_microsec :=
    sub64 (timeval2microsec (end_tv_ t)) (timeval2microsec (start_tv_ t)) in
  {| tv_sec := div64 diff_microsec kMicroSecs;
     tv_usec := rem64 diff_microsec kMicroSecs |}.

(** [std::ostringstream], as far as [TimerDiff] uses it: the characters
    written, the field width of the next insertion and the fill character.
    An insertion pads on the left up to the width (the stream's adjustment
    is the default one) and sets the width back to zero. *)
Record ostringstream : Type := mk_ostringstream
  { str : string; width : nat; fill : ascii }.

Definition new_ostringstream : ostringstream := mk_ostringstream "" 0 " "%char.

Fixpoint fill_n (n : nat) (c : ascii) (s : string) : string :=
  match n with
  | O => s
  | S n' => String c (fill_n n' c s)
  end.

Definition insert_string (os : ostringstream) (s : string) : ostringstream :=
  mk_ostringstream
    (str os +:+ fill_n (width os - String.length s) (fill os) s) 0 (fill os).

Definition insert_long (os : ostringstream) (z : Z) : ostringstream :=
  insert_string os (pretty z).

Definition set_width (os : ostringstream) (w : nat) : ostringstream :=
  mk_ostringstream (str os) w (fill os).

Definition set_fill (os : ostringstream) (c : ascii) : ostringstream :=
  mk_ostringstream (str os) (width os) c.

Definition TimerDiff (t : Timer) : string :=
  let diff_tv := TimerDiffToTimeval t in
  let ret_string := new_ostringstream in
  let ret_string := insert_string (insert_long ret_string (tv_sec diff_tv)) "." in
  let ret_string := set_width ret_string 3 in
  let ret_string := set_fill ret_string "0"%char in
  let ret_string := insert_long ret_string (div64 (tv_usec diff_tv) 1000) in
  str ret_string.

(** The microseconds a timestamp stands for, and the timestamps the clock
    writes: seconds since the Epoch, microseconds below a million, and a
    count that fits [suseconds_t]. *)
Definition microseconds (tv : timeval) : Z := tv_sec tv * 1000000 + tv_usec tv.

Definition captured (tv : timeval) : Prop :=
  0 <= tv_sec tv /\ 0 <= tv_usec tv < 1000000 /\ microseconds tv <= INT64_MAX.

(** The timers on which no step of [TimerDiffToTimeval] leaves the range of
    [long]: the fields, the product, the two counts and their difference. *)
Definition in_long (tv : timeval) : Prop :=
  int64 (tv_sec tv) /\ int64 (tv_usec tv) /\
  int64 (tv_sec tv * 1000000) /\ int64 (microseconds tv).

Definition no_overflow (t : Timer) : Prop :=
  in_long (start_tv_ t) /\ in_long (end_tv_ t) /\
  int64 (microseconds (end_tv_ t) - microseconds (start_tv_ t)).

(** A valid (seconds, microseconds) pair. *)
Definition normalized (tv : timeval) : Prop :=
  0 <= tv_sec tv /\ 0 <= tv_usec tv < 1000000.

Definition digit (d : Z) : ascii := ascii_of_nat (48 + Z.to_nat d).

Definition three_digits (ms : Z) : string :=
  String (digit (ms / 100)) (String (digit (ms / 10 mod 10)) (String (digit (ms mod 10)) "")).

(** ** A small outside world, to run the code on

    Trees are allocated at consecutive addresses and remembered with their
    source; deleting a tree that is not allocated, or asking about a node of
    one, is outside the contract.  The toy grammar makes one leaf of every
    character under a root; a question mark is an error leaf.  Only the C
    grammar is loaded: the parser produces no tree for the other one. *)

Inductive demo_language : Type := LANGUAGE_C | LANGUAGE_VERILOG.

Record demo_world : Type := mk_demo_world
  { trees : gmap TSTree string;
    files : gmap string string;
    next_tree : TSTree }.

Definition ts_builtin_sym_error : N := 65535.

Definition demo_symbol (c : ascii) : N :=
  if Ascii.eqb c "?" then ts_builtin_sym_error else N_of_ascii c.

Fixpoint demo_leaves (t : TSTree) (offset : N) (source : string) : list TSNode :=
  match source with
  | EmptyString => []
  | String c rest =>
      ts_node t (demo_symbol c) offset [] :: demo_leaves t (offset + 1) rest
  end.

Definition demo_root (t : TSTree) (source : string) : TSNode :=
  ts_node t 1 0 (demo_leaves t 0 source).

Definition demo_allocated (n : TSNode) (w : demo_world) : bool :=
  bool_decide (is_Some (trees w !! ts_node_tree n)).

#[export] Instance demo : External := {|
  world := demo_world;
  Language := demo_language;
  ts_parser_parse_string L source_code w :=
    match L with
    | LANGUAGE_C =>
        (Some (next_tree w),
         mk_demo_world (<[next_tree w := source_code]> (trees w)) (files w)
           (Pos.succ (next_tree w)))
    | LANGUAGE_VERILOG => (None, w)
    end;
  ts_tree_delete tree w :=
    match tree with
    | None => Some w
    | Some t =>
        match trees w !! t with
        | Some _ => Some (mk_demo_world (delete t (trees w)) (files w) (next_tree w))
        | None => None
        end
    end;
  ts_tree_root_node t w := demo_root t <$> (trees w !! t);
  ts_node_has_error n w :=
    if demo_allocated n w
    then Some (existsb (fun m => N.eqb (ts_node_symbol m) ts_builtin_sym_error) (preorder n))
    else None;
  ts_node_string n w :=
    if demo_allocated n w then Some ("(" +:+ pretty (ts_node_symbol n) +:+ ")") else None;
  read_file source_file w :=
    match files w !! source_file with
    | Some contents => inr contents
    | None => inl ("Open failed: " +:+ source_file)
    end
|}.

Definition demo_start : @state demo :=
  mk_state (mk_demo_world ∅ {[ "ok.c" := "a+b"; "bad.c" := "a?b" ]} 1%positive) [].

Definition demo_interest (G : demo_language) (n : TSNode) : bool :=
  match G with
  | LANGUAGE_C => N.eqb (ts_node_symbol n) 97
  | LANGUAGE_VERILOG => negb (N.eqb (ts_node_symbol n) 1)
  end.

(** * Properties *)

(** ** The text of a message *)

Lemma string_app_assoc (a b c : string) : (a +:+ b) +:+ c = a +:+ (b +:+ c).
Proof.
  induction a as [|x a IH]; [reflexivity |].
  change (String x ((a +:+ b) +:+ c) = String x (a +:+ (b +:+ c))). by rewrite IH.
Qed.

Lemma c_str_app (a b : string) :
  c_str (a +:+ b) = if has_nul a then c_str a else a +:+ c_str b.
Proof.
  induction a as [|x a IH]; [reflexivity |].
  change (c_str (String x (a +:+ b))
          = if has_nul (String x a) then c_str (String x a) else String x (a +:+ c_str b)).
  simpl. destruct (Ascii.eqb x "000"); [reflexivity |].
  simpl. rewrite IH. by destruct (has_nul a).
Qed.

Lemma c_str_without_nul (a : string) : has_nul a = false -> c_str a = a.
Proof.
  induction a as [|x a IH]; [reflexivity |]. simpl.
  destruct (Ascii.eqb x "000"); [discriminate |]. simpl.
  intros Ha. by rewrite IH.
Qed.

Lemma has_nul_c_str (a : string) : has_nul (c_str a) = false.
Proof.
  induction a as [|x a IH]; [reflexivity |]. simpl.
  destruct (Ascii.eqb x "000") eqn:Hx; [reflexivity |]. simpl. by rewrite Hx.
Qed.

(** The text of a derived exception: the prefix of its class, then the text
    of the string it was made from. *)
Lemma what_cf_unexpected_situation (error : string) :
  what (cf_unexpected_situation error) = "Assert failed: " +:+ c_str error.
Proof. unfold what, cf_unexpected_situation; simpl. by rewrite c_str_app. Qed.



(** ** The guard *)

Section Guard.
Context `{E : External}.

(** The state after one more call that left the outside world as it was. *)
Lemma extern_read_unfold {A} (c : call) (f : world -> option A) (s : state) :
  extern_read c f s
    = match f (outside s) with
      | Some a => Returns a (mk_state (outside s) (calls s ++ [c]))
      | None => Undefined
      end.
Proof. reflexivity. Qed.

Lemma cf_assert_unfold (value : bool) (message : string) (s : state) :
  cf_assert value message s
    = if value then Returns tt s else Throws (cf_unexpected_situation message) s.
Proof. by destruct value. Qed.

(** C5.  [cf_assert] throws exactly when the condition is false, and what it
    throws is a [cf_unexpected_situation] carrying the message: the stored
    string is the message behind the prefix of the class, and [what()] reads
    it as far as its first NUL, which is all of it when the message has
    none.  When the condition is true it returns and the state is the one it
    started in.  The overload with a node throws the message followed by the
    text of the node; the outside world is as it was, and the record of
    calls has the node-to-text call added. *)
Theorem cf_assert_guard (value : bool) (message : string) (s : state) :
  cf_assert value message s
    = (if value then Returns tt s else Throws (cf_unexpected_situation message) s)
  /\ ((exists e s', cf_assert value message s = Throws e s') <-> value = false)
  /\ exception_class (cf_unexpected_situation message) = class_cf_unexpected_situation
  /\ message_ (cf_unexpected_situation message) = "Assert failed: " +:+ message
  /\ what (cf_unexpected_situation message) = "Assert failed: " +:+ c_str message
  /\ (has_nul message = false ->
      what (cf_unexpected_situation message) = "Assert failed: " +:+ message)
  /\ (forall node : TSNode,
        cf_assert_node value message node s
          = match ts_node_string node (outside s) with
            | Some text =>
                if value
                then Returns tt
                       (mk_state (outside s) (calls s ++ [call_ts_node_string node]))
                else Throws (cf_unexpected_situation (message +:+ text))
                       (mk_state (outside s) (calls s ++ [call_ts_node_string node]))
            | None => Undefined
            end).
Proof.
  split; [apply cf_assert_unfold |].
  split.
  { rewrite cf_assert_unfold. destruct value.
    - split; [intros (e & s' & H); discriminate | discriminate].
    - split; [reflexivity | intros _; eauto]. }
  split; [reflexivity |]. split; [reflexivity |].
  split; [apply what_cf_unexpected_situation |].
  split; [intros Hnul; by rewrite what_cf_unexpected_situation, c_str_without_nul |].
  intros node. unfold cf_assert_node, bind. rewrite extern_read_unfold.
  destruct (ts_node_string node (outside s)) as [text|]; [| reflexivity].
  apply cf_assert_unfold.
Qed.

(** C9.  The overload with a node is the string overload applied to the
    message followed by the text of the node, run after the node-to-text
    call.  The call is made whatever the condition is: with a true condition
    it is still recorded, and where tree-sitter's contract for the node is
    broken the guard has undefined behaviour although nothing would be
    thrown. *)
Theorem cf_assert_node_is_cf_assert (value : bool) (message : string)
    (node : TSNode) (s : state) :
  cf_assert_node value message node s
    = match ts_node_string node (outside s) with
      | Some text =>
          cf_assert value (message +:+ text)
            (mk_state (outside s) (calls s ++ [call_ts_node_string node]))
      | None => Undefined
      end
  /\ match cf_assert_node true message node s with
     | Returns _ s' =>
         calls s' = calls s ++ [call_ts_node_string node] /\
         is_Some (ts_node_string node (outside s))
     | Throws _ _ => False
     | Undefined => ts_node_string node (outside s) = None
     end.
Proof.
  assert (Hunfold : forall v, cf_assert_node v message node s
    = match ts_node_string node (outside s) with
      | Some text =>
          cf_assert v (message +:+ text)
            (mk_state (outside s) (calls s ++ [call_ts_node_string node]))
      | None => Undefined
      end).
  { intros v. unfold cf_assert_node, bind. rewrite extern_read_unfold.
    by destruct (ts_node_string node (outside s)). }
  split; [apply Hunfold |].
  rewrite Hunfold.
  destruct (ts_node_string node (outside s)) as [text|] eqn:Htext; [| reflexivity].
  rewrite cf_assert_unfold. simpl. split; [reflexivity | eauto].
Qed.

End Guard.

(** In the small world: a failed guard on a node of an allocated tree, and a
    guard that holds on a node of a tree that was deleted. *)
Example cf_assert_node_demo :
  (tree <- GetTSTree_string LANGUAGE_C "a+b" false ;;
   cf_assert_node false "unexpected: " (ts_node 1 43 1 [])) demo_start
  = Throws (cf_unexpected_situation "unexpected: (43)")
      (mk_state (mk_demo_world {[ 1%positive := "a+b" ]} (files (outside demo_start)) 2)
         [call_ts_parser_parse_string "a+b"; call_ts_node_string (ts_node 1 43 1 [])])
  /\ (tree <- GetTSTree_string LANGUAGE_C "a+b" false ;;
      _ <- destroy tree ;;
      cf_assert_node true "unexpected: " (ts_node 1 43 1 [])) demo_start
     = Undefined.
Proof. split; vm_compute; reflexivity. Qed.

(** ** The managed tree *)

Section Managed.
Context `{E : External}.

Lemma TSTreeDeleter_unfold (tree : TSTree_ptr) (s : state) :
  TSTreeDeleter tree s
    = match ts_tree_delete tree (outside s) with
      | Some w => Returns tt (mk_state w (calls s ++ [call_ts_tree_delete tree]))
      | None => Undefined
      end.
Proof.
  unfold TSTreeDeleter, extern_write.
  by destruct (ts_tree_delete tree (outside s)).
Qed.

Lemma destroy_unfold (p : ManagedTSTree) (s : state) :
  destroy p s
    = match get p with
      | Some t =>
          match ts_tree_delete (Some t) (outside s) with
          | Some w =>
              Returns (unique_ptr None)
                (mk_state w (calls s ++ [call_ts_tree_delete (Some t)]))
          | None => Undefined
          end
      | None => Returns (unique_ptr None) s
      end.
Proof.
  unfold destroy. destruct (get p) as [t|]; [| reflexivity].
  unfold bind. rewrite TSTreeDeleter_unfold.
  by destruct (ts_tree_delete (Some t) (outside s)).
Qed.

Lemma reset_is_destroy (p : ManagedTSTree) (s : state) : reset p s = destroy p s.
Proof. unfold reset, destroy. by destruct (get p). Qed.

Lemma deletions_snoc (cs : list call) (c : call) :
  deletions (cs ++ [c]) = (deletions cs + if is_tree_delete c then 1 else 0)%nat.
Proof.
  unfold deletions. rewrite List.filter_app, length_app. f_equal.
  by destruct c.
Qed.

(** C1.  Destroying a holder that holds a tree calls [ts_tree_delete] on
    that tree, once, and leaves the holder empty; destroying an empty holder
    returns in the state it started in, whatever the outside world is: no
    call, no undefined behaviour.  So after a destruction or a [reset()]
    that returned, or on the holder a move left behind, a destruction
    changes nothing and adds no deletion. *)
Theorem ManagedTSTree_deleted_once (p : ManagedTSTree) (s : state) :
  destroy p s
    = match get p with
      | Some t =>
          match ts_tree_delete (Some t) (outside s) with
          | Some w =>
              Returns (unique_ptr None)
                (mk_state w (calls s ++ [call_ts_tree_delete (Some t)]))
          | None => Undefined
          end
      | None => Returns (unique_ptr None) s
      end
  /\ match destroy p s with
     | Returns p' s' =>
         get p' = None
         /\ deletions (calls s')
            = (deletions (calls s) + match get p with Some _ => 1 | None => 0 end)%nat
         /\ destroy p' s' = Returns p' s'
     | Throws _ _ => False
     | Undefined => exists t, get p = Some t /\ ts_tree_delete (Some t) (outside s) = None
     end
  /\ match reset p s with
     | Returns p' s' => get p' = None /\ destroy p' s' = Returns p' s'
     | Throws _ _ => False
     | Undefined => exists t, get p = Some t /\ ts_tree_delete (Some t) (outside s) = None
     end
  /\ get (move p).1 = get p
  /\ destroy (move p).2 s = Returns (move p).2 s.
Proof.
  split; [apply destroy_unfold |].
  assert (Hdestroy : match destroy p s with
     | Returns p' s' =>
         get p' = None
         /\ deletions (calls s')
            = (deletions (calls s) + match get p with Some _ => 1 | None => 0 end)%nat
         /\ destroy p' s' = Returns p' s'
     | Throws _ _ => False
     | Undefined => exists t, get p = Some t /\ ts_tree_delete (Some t) (outside s) = None
     end).
  { rewrite destroy_unfold. destruct (get p) as [t|] eqn:Hp.
    - destruct (ts_tree_delete (Some t) (outside s)) as [w|] eqn:Hw; [| eauto].
      split; [reflexivity |]. split; [| reflexivity].
      simpl. apply deletions_snoc.
    - split; [reflexivity |]. split; [lia | reflexivity]. }
  split; [exact Hdestroy |]. split.
  { rewrite reset_is_destroy. destruct (destroy p s); [| done..].
    destruct Hdestroy as (Hempty & _ & Hagain). by split. }
  split; reflexivity.
Qed.

End Managed.

(** In the small world: a parsed tree is deleted once by the first
    destruction and not again by the second; a second holder of the same
    tree, which [unique_ptr] never hands out, would delete it twice. *)
Example destroy_demo :
  match (tree <- GetTSTree_string LANGUAGE_C "a+b" false ;;
         tree' <- destroy tree ;; destroy tree') demo_start with
  | Returns tree'' s => Some (get tree'', calls s, trees (outside s))
  | _ => None
  end
  = Some (None,
          [call_ts_parser_parse_string "a+b"; call_ts_tree_delete (Some 1%positive)],
          ∅)
  /\ (tree <- GetTSTree_string LANGUAGE_C "a+b" false ;;
      _ <- destroy tree ;; destroy (unique_ptr (get tree))) demo_start
     = Undefined.
Proof. split; vm_compute; reflexivity. Qed.

(** ** The entry points *)

Section EntryPoints.
Context `{E : External}.
Variable forwarded_report_parse_errors : bool.

Lemma GetTSTree_string_unfold (L : Language) (source_code : string)
    (report_parse_errors : bool) (s : state) :
  GetTSTree_string L source_code report_parse_errors s
    = match (ts_parser_parse_string L source_code (outside s)).1 with
      | None => Throws (cf_parse_error source_code) (parsed L source_code s)
      | Some t =>
          if report_parse_errors then
            match ts_tree_root_node t (outside (parsed L source_code s)) with
            | Some root =>
                match ts_node_has_error root (outside (parsed L source_code s)) with
                | Some true =>
                    match ts_tree_delete (Some t) (outside (parsed L source_code s)) with
                    | Some w =>
                        Throws (cf_parse_error source_code)
                          (rejected t root w (parsed L source_code s))
                    | None => Undefined
                    end
                | Some false =>
                    Returns (unique_ptr (Some t))
                      (inspected t root (parsed L source_code s))
                | None => Undefined
                end
            | None => Undefined
            end
          else Returns (unique_ptr (Some t)) (parsed L source_code s)
      end.
Proof.
  unfold GetTSTree_string, bind, extern_write, parsed.
  destruct (ts_parser_parse_string L source_code (outside s)) as [[t|] w]; simpl;
    [| reflexivity].
  destruct report_parse_errors; [| reflexivity].
  rewrite extern_read_unfold; simpl.
  destruct (ts_tree_root_node t w) as [root|]; [| reflexivity].
  rewrite extern_read_unfold; simpl.
  destruct (ts_node_has_error root w) as [[]|]; try reflexivity.
  rewrite destroy_unfold; simpl.
  by destruct (ts_tree_delete (Some t) w).
Qed.


(** The outcome of the string entry point does not depend on the calls
    recorded before it. *)
Lemma GetTSTree_string_calls (L : Language) (source_code : string)
    (report_parse_errors : bool) (s : state) (cs : list call) :
  match GetTSTree_string L source_code report_parse_errors s,
        GetTSTree_string L source_code report_parse_errors
          (mk_state (outside s) cs) with
  | Returns tree s1, Returns tree' s2 => tree' = tree /\ outside s2 = outside s1
  | Throws e s1, Throws e' s2 => e' = e /\ outside s2 = outside s1
  | Undefined, Undefined => True
  | _, _ => False
  end.
Proof.
  rewrite !GetTSTree_string_unfold. unfold parsed; simpl.
  destruct (ts_parser_parse_string L source_code (outside s)) as [[t|] w]; simpl;
    [| done].
  destruct report_parse_errors; [| done].
  destruct (ts_tree_root_node t w) as [root|]; [| done].
  destruct (ts_node_has_error root w) as [[]|]; try done.
  by destruct (ts_tree_delete (Some t) w).
Qed.

(** C2.  When the file is read, [GetTSTree] on a file is [GetTSTree] on a
    string, run on the contents of the file after the read: it returns the
    tree the string entry point returns, and the contents beside it, or
    throws what it throws.  When the read fails it throws a
    [cf_file_access_exception] with the error and does not parse. *)
Theorem GetTSTree_file_delegates (L : Language) (source_file : string) (s : state) :
  GetTSTree_file forwarded_report_parse_errors L source_file s
    = match read_file source_file (outside s) with
      | inr source_file_contents =>
          match GetTSTree_string L source_file_contents
                  forwarded_report_parse_errors (file_read source_file s) with
          | Returns tree s' => Returns (tree, source_file_contents) s'
          | Throws e s' => Throws e s'
          | Undefined => Undefined
          end
      | inl error => Throws (cf_file_access_exception error) (file_read source_file s)
      end
  /\ match read_file source_file (outside s) with
     | inr source_file_contents =>
         match GetTSTree_string L source_file_contents
                 forwarded_report_parse_errors s,
               GetTSTree_file forwarded_report_parse_errors
                 L source_file s with
         | Returns tree s1, Returns (tree', contents) s2 =>
             tree' = tree /\ contents = source_file_contents /\ outside s2 = outside s1
         | Throws e s1, Throws e' s2 => e' = e /\ outside s2 = outside s1
         | Undefined, Undefined => True
         | _, _ => False
         end
     | inl error =>
         exists s',
           GetTSTree_file forwarded_report_parse_errors
             L source_file s = Throws (cf_file_access_exception error) s' /\
           exception_class (cf_file_access_exception error)
             = class_cf_file_access_exception /\
           outside s' = outside s /\
           calls s' = calls s ++ [call_read_file source_file]
     end.
Proof.
  assert (Hunfold :
    GetTSTree_file forwarded_report_parse_errors L source_file s
    = match read_file source_file (outside s) with
      | inr source_file_contents =>
          match GetTSTree_string L source_file_contents
                  forwarded_report_parse_errors (file_read source_file s) with
          | Returns tree s' => Returns (tree, source_file_contents) s'
          | Throws e s' => Throws e s'
          | Undefined => Undefined
          end
      | inl error => Throws (cf_file_access_exception error) (file_read source_file s)
      end).
  { unfold GetTSTree_file, bind at 1. rewrite extern_read_unfold.
    fold (file_read source_file s).
    destruct (read_file source_file (outside s)) as [error|contents]; [reflexivity |].
    unfold bind.
    by destruct (GetTSTree_string L contents
                   forwarded_report_parse_errors (file_read source_file s)). }
  split; [exact Hunfold |].
  rewrite Hunfold.
  destruct (read_file source_file (outside s)) as [error|contents].
  - exists (file_read source_file s). repeat split.
  - pose proof (GetTSTree_string_calls L contents forwarded_report_parse_errors s
                  (calls s ++ [call_read_file source_file])) as Hsame.
    fold (file_read source_file s) in Hsame.
    destruct (GetTSTree_string L contents
                forwarded_report_parse_errors s);
      destruct (GetTSTree_string L contents
                  forwarded_report_parse_errors (file_read source_file s));
      try done.
    destruct Hsame as [-> ->]. done.
Qed.

End EntryPoints.


(** In the small world: a file with an error leaf, read with and without
    reporting, and a file that is not there. *)
Example GetTSTree_file_demo :
  match GetTSTree_file true LANGUAGE_C "bad.c" demo_start with
  | Throws e s => Some (what e, calls s)
  | _ => None
  end
  = Some ("Parse error in expression:a?b",
          [call_read_file "bad.c"; call_ts_parser_parse_string "a?b";
           call_ts_tree_root_node 1;
           call_ts_node_has_error (demo_root 1 "a?b");
           call_ts_tree_delete (Some 1%positive)])
  /\ match GetTSTree_file false LANGUAGE_C "bad.c" demo_start with
     | Returns r s => Some (r, calls s)
     | _ => None
     end
     = Some ((unique_ptr (Some 1%positive), "a?b"),
             [call_read_file "bad.c"; call_ts_parser_parse_string "a?b"])
  /\ match GetTSTree_file true LANGUAGE_C "none.c" demo_start with
     | Throws e s => Some (what e, calls s)
     | _ => None
     end
     = Some ("File access failed: Open failed: none.c", [call_read_file "none.c"]).
Proof. repeat split; vm_compute; reflexivity. Qed.

(** ** The collector *)

(** Induction on a node, with the property for all its children. *)
Lemma TSNode_children_ind (P : TSNode -> Prop) :
  (forall tree symbol start_byte children,
      Forall P children -> P (ts_node tree symbol start_byte children)) ->
  forall n, P n.
Proof.
  intros Hnode. fix IH 1. intros [tree symbol start_byte children].
  apply Hnode. induction children as [|child children IHchildren].
  - constructor.
  - constructor; [apply IH | exact IHchildren].
Qed.

Section Collector.
Context `{E : External}.
Variable interest : Language -> TSNode -> bool.
Variable absent_tree_message : string.

Lemma filter_flat_map {A B} (f : B -> bool) (g : A -> list B) (l : list A) :
  List.filter f (flat_map g l) = flat_map (fun a => List.filter f (g a)) l.
Proof.
  induction l as [|a l IH]; [reflexivity |].
  simpl. by rewrite List.filter_app, IH.
Qed.

(** The collector appends the nodes of interest of the subtree, in
    pre-order, to what the sequence held. *)
Lemma CollectCodeBlocksOfInterest_appends (G : Language) (root_node : TSNode) :
  forall code_blocks : code_blocks_t,
    CollectCodeBlocksOfInterest interest G root_node code_blocks
      = code_blocks ++ List.filter (interest G) (preorder root_node).
Proof.
  induction root_node as [tree symbol start_byte children IH]
    using TSNode_children_ind.
  intros code_blocks.
  assert (Hchildren : forall blocks,
    fold_left (fun blocks child => CollectCodeBlocksOfInterest interest G child blocks)
      children blocks
    = blocks ++ List.filter (interest G) (flat_map preorder children)).
  { clear code_blocks. induction IH as [|child children Hchild _ IHchildren];
      intros blocks; simpl.
    - by rewrite app_nil_r.
    - rewrite IHchildren, Hchild, List.filter_app. by rewrite <- app_assoc. }
  change (CollectCodeBlocksOfInterest interest G
            (ts_node tree symbol start_byte children) code_blocks)
    with (fold_left
            (fun blocks child => CollectCodeBlocksOfInterest interest G child blocks)
            children
            (if interest G (ts_node tree symbol start_byte children)
             then code_blocks ++ [ts_node tree symbol start_byte children]
             else code_blocks)).
  rewrite Hchildren. simpl preorder. simpl List.filter.
  destruct (interest G (ts_node tree symbol start_byte children)).
  - by rewrite <- app_assoc.
  - reflexivity.
Qed.

Lemma count_of_interest_preorder (G : Language) (n : TSNode) :
  length (List.filter (interest G) (preorder n)) = count_of_interest interest G n.
Proof.
  induction n as [tree symbol start_byte children IH] using TSNode_children_ind.
  simpl preorder. simpl List.filter.
  change (count_of_interest interest G (ts_node tree symbol start_byte children))
    with ((if interest G (ts_node tree symbol start_byte children) then 1 else 0)
          + fold_right (fun child k => count_of_interest interest G child + k) 0
              children)%nat.
  assert (Hchildren :
    length (List.filter (interest G) (flat_map preorder children))
    = fold_right (fun child k => (count_of_interest interest G child + k)%nat) 0%nat
        children).
  { induction IH as [|child children Hchild _ IHchildren]; [reflexivity |].
    simpl. by rewrite List.filter_app, length_app, Hchild, IHchildren. }
  destruct (interest G (ts_node tree symbol start_byte children)); simpl;
    by rewrite Hchildren.
Qed.

(** C4.  The collector appends to the sequence exactly the nodes of the
    tree that satisfy the interest predicate of the grammar, in pre-order,
    so that the sequence grows by the number of such nodes.  On a managed
    tree it reads the root and changes nothing outside, and run a second
    time after the first, with the same tree, grammar and sequence, it
    returns the same sequence, node for node. *)
Theorem CollectCodeBlocksOfInterest_deterministic (G : Language)
    (tree : ManagedTSTree) (code_blocks : code_blocks_t) (s : state) :
  (forall root_node : TSNode,
     CollectCodeBlocksOfInterest interest G root_node code_blocks
       = code_blocks ++ List.filter (interest G) (preorder root_node)
     /\ length (CollectCodeBlocksOfInterest interest G root_node code_blocks)
        = (length code_blocks + count_of_interest interest G root_node)%nat
     /\ length (CollectCodeBlocksOfInterest interest G root_node [])
        = count_of_interest interest G root_node)
  /\ match CollectCodeBlocksOfInterest_tree interest absent_tree_message G tree
             code_blocks s with
     | Returns blocks s' =>
         (exists t root_node,
            get tree = Some t /\
            ts_tree_root_node t (outside s) = Some root_node /\
            blocks = code_blocks ++ List.filter (interest G) (preorder root_node) /\
            length blocks
              = (length code_blocks + count_of_interest interest G root_node)%nat)
         /\ outside s' = outside s
         /\ calls s' = calls s ++ match get tree with
                                  | Some t => [call_ts_tree_root_node t]
                                  | None => []
                                  end
         /\ match CollectCodeBlocksOfInterest_tree interest absent_tree_message G tree
                    code_blocks s' with
            | Returns blocks' s'' => blocks' = blocks /\ outside s'' = outside s
            | _ => False
            end
     | Throws e s' =>
         get tree = None /\ e = cf_unexpected_situation absent_tree_message /\ s' = s
     | Undefined => exists t, get tree = Some t /\ ts_tree_root_node t (outside s) = None
     end.
Proof.
  split.
  { intros root_node. rewrite !CollectCodeBlocksOfInterest_appends.
    rewrite !length_app, count_of_interest_preorder. by simpl. }
  unfold CollectCodeBlocksOfInterest_tree.
  destruct (get tree) as [t|]; [| by unfold bind; rewrite cf_assert_unfold].
  unfold bind. rewrite !extern_read_unfold.
  destruct (ts_tree_root_node t (outside s)) as [root_node|] eqn:Hroot; [| eauto].
  unfold ret. rewrite extern_read_unfold. simpl. rewrite Hroot.
  split; [| by repeat split].
  exists t, root_node. split; [reflexivity | split; [exact Hroot | split]].
  - apply CollectCodeBlocksOfInterest_appends.
  - by rewrite CollectCodeBlocksOfInterest_appends, length_app,
         count_of_interest_preorder.
Qed.

End Collector.

(** In the small world: the nodes of interest of two grammars in one tree,
    collected into one sequence. *)
Example CollectCodeBlocksOfInterest_demo :
  match (tree <- GetTSTree_string LANGUAGE_C "aba" false ;;
         blocks <- CollectCodeBlocksOfInterest_tree demo_interest "no tree"
                     LANGUAGE_C tree [] ;;
         CollectCodeBlocksOfInterest_tree demo_interest "no tree"
           LANGUAGE_VERILOG tree blocks) demo_start with
  | Returns blocks s => Some blocks
  | _ => None
  end
  = Some [ts_node 1 97 0 []; ts_node 1 97 2 [];
          ts_node 1 97 0 []; ts_node 1 98 1 []; ts_node 1 97 2 []]
  /\ CollectCodeBlocksOfInterest_tree demo_interest "no tree" LANGUAGE_C
       (unique_ptr None) [] demo_start
     = Throws (cf_unexpected_situation "no tree") demo_start.
Proof. split; vm_compute; reflexivity. Qed.

(** ** Machine arithmetic *)

Lemma wrap64_int64 (z : Z) : int64 (wrap64 z).
Proof.
  unfold int64, wrap64, INT64_MIN, INT64_MAX.
  pose proof (Z.mod_pos_bound (z + 2 ^ 63) (2 ^ 64) ltac:(lia)). lia.
Qed.

Lemma wrap64_id (z : Z) : int64 z -> wrap64 z = z.
Proof.
  unfold int64, wrap64, INT64_MIN, INT64_MAX. intros Hz.
  rewrite Z.mod_small by lia. lia.
Qed.

Lemma wrap64_add_l (a b : Z) : wrap64 (wrap64 a + b) = wrap64 (a + b).
Proof.
  unfold wrap64. f_equal.
  replace ((a + 2 ^ 63) mod 2 ^ 64 - 2 ^ 63 + b + 2 ^ 63)
    with ((a + 2 ^ 63) mod 2 ^ 64 + b) by lia.
  rewrite Z.add_mod_idemp_l by lia. f_equal. lia.
Qed.

Lemma timeval2microsec_wrap (tv : timeval) :
  timeval2microsec tv = wrap64 (microseconds tv).
Proof.
  unfold timeval2microsec, add64, mul64, microseconds, kMicroSecs.
  apply wrap64_add_l.
Qed.

Lemma timeval2microsec_exact (tv : timeval) :
  int64 (microseconds tv) -> timeval2microsec tv = microseconds tv.
Proof. intros H. rewrite timeval2microsec_wrap. by apply wrap64_id. Qed.

Lemma captured_int64 (tv : timeval) : captured tv -> int64 (microseconds tv).
Proof.
  unfold captured, int64, microseconds, INT64_MIN, INT64_MAX. lia.
Qed.

Lemma captured_nonneg (tv : timeval) : captured tv -> 0 <= microseconds tv.
Proof. unfold captured, microseconds. lia. Qed.

(** The difference of two counts that fit, when it fits too, is split by
    truncating division. *)
Lemma TimerDiffToTimeval_exact (t : Timer) :
  int64 (microseconds (start_tv_ t)) ->
  int64 (microseconds (end_tv_ t)) ->
  int64 (microseconds (end_tv_ t) - microseconds (start_tv_ t)) ->
  TimerDiffToTimeval t =
    mk_timeval
      (Z.quot (microseconds (end_tv_ t) - microseconds (start_tv_ t)) 1000000)
      (Z.rem (microseconds (end_tv_ t) - microseconds (start_tv_ t)) 1000000).
Proof.
  intros Hs He Hd. unfold TimerDiffToTimeval, sub64, div64, rem64, kMicroSecs.
  rewrite !timeval2microsec_exact by done.
  rewrite (wrap64_id (_ - _)) by done.
  set (d := microseconds (end_tv_ t) - microseconds (start_tv_ t)) in *.
  assert (Hq : int64 (Z.quot d 1000000)).
  { unfold int64, INT64_MIN, INT64_MAX in *.
    destruct (Z.le_gt_cases 0 d).
    - pose proof (Z.quot_pos d 1000000 ltac:(lia) ltac:(lia)).
      pose proof (Z.quot_le_upper_bound d 1000000 (2 ^ 63 - 1) ltac:(lia) ltac:(lia)).
      lia.
    - pose proof (Z.quot_opp_l d 1000000 ltac:(lia)) as Ho.
      pose proof (Z.quot_pos (- d) 1000000 ltac:(lia) ltac:(lia)).
      pose proof (Z.quot_le_upper_bound (- d) 1000000 (2 ^ 63) ltac:(lia) ltac:(lia)).
      lia. }
  assert (Hr : int64 (Z.rem d 1000000)).
  { unfold int64, INT64_MIN, INT64_MAX.
    pose proof (Z.rem_bound_abs d 1000000 ltac:(lia)). lia. }
  by rewrite !wrap64_id.
Qed.

(** ** The timer *)

(** C6.  For two captured timestamps with the stop's microsecond count at
    least the start's, [TimerDiffToTimeval] returns a valid (seconds,
    microseconds) pair, seconds non-negative and microseconds in
    [0, 1000000), that stands for exactly the difference of the two counts;
    the microsecond component of the stop may be smaller than the start's. *)
Theorem TimerDiffToTimeval_normalized (t : Timer) :
  captured (start_tv_ t) ->
  captured (end_tv_ t) ->
  microseconds (start_tv_ t) <= microseconds (end_tv_ t) ->
  normalized (TimerDiffToTimeval t) /\
  microseconds (TimerDiffToTimeval t)
    = microseconds (end_tv_ t) - microseconds (start_tv_ t).
Proof.
  intros Hs He Hle.
  pose proof (captured_int64 _ Hs) as Is. pose proof (captured_int64 _ He) as Ie.
  pose proof (captured_nonneg _ Hs) as Ns.
  rewrite TimerDiffToTimeval_exact; try done.
  - set (d := microseconds (end_tv_ t) - microseconds (start_tv_ t)).
    assert (0 <= d) by (unfold d; lia).
    unfold normalized, microseconds; simpl.
    pose proof (Z.quot_pos d 1000000 ltac:(lia) ltac:(lia)).
    pose proof (Z.rem_bound_pos d 1000000 ltac:(lia) ltac:(lia)).
    pose proof (Z.quot_rem' d 1000000). lia.
  - unfold int64, INT64_MIN, INT64_MAX in *. lia.
Qed.

(** The theorem at a start of 10.700000 s and a stop of 12.200000 s: the
    stop's microseconds are the smaller ones, the difference is 1.500000 s. *)
Lemma TimerDiffToTimeval_normalized_witness :
  normalized (TimerDiffToTimeval (mk_Timer (mk_timeval 10 700000) (mk_timeval 12 200000))) /\
  microseconds (TimerDiffToTimeval (mk_Timer (mk_timeval 10 700000) (mk_timeval 12 200000)))
    = 1500000.
Proof.
  apply (TimerDiffToTimeval_normalized
           (mk_Timer (mk_timeval 10 700000) (mk_timeval 12 200000)));
    unfold captured, microseconds, INT64_MAX; simpl; lia.
Defined.

(** Formatting a number below a thousand in a field of three, filled with
    zeros, writes its three decimal digits. *)
Lemma three_digits_fill (ms : Z) :
  0 <= ms < 1000 ->
  fill_n (3 - String.length (pretty ms)) "0"%char (pretty ms) = three_digits ms.
Proof.
  intros Hms.
  assert (Hall : forallb
            (fun m => String.eqb
                        (fill_n (3 - String.length (pretty m)) "0"%char (pretty m))
                        (three_digits m))
            (seqZ 0 1000) = true) by (vm_compute; reflexivity).
  rewrite forallb_forall in Hall.
  apply String.eqb_eq, Hall, list_elem_of_In, elem_of_seqZ. lia.
Qed.

(** An insertion into a stream whose field width is zero appends unpadded. *)
Lemma insert_string_unpadded (os : ostringstream) (s : string) :
  width os = 0%nat ->
  insert_string os s = mk_ostringstream (str os +:+ s) 0 (fill os).
Proof. intros Hw. unfold insert_string. rewrite Hw. reflexivity. Qed.

Lemma TimerDiff_unfold (t : Timer) :
  TimerDiff t
    = (pretty (tv_sec (TimerDiffToTimeval t)) +:+ ".") +:+
      fill_n (3 - String.length (pretty (div64 (tv_usec (TimerDiffToTimeval t)) 1000)))
        "0"%char (pretty (div64 (tv_usec (TimerDiffToTimeval t)) 1000)).
Proof.
  unfold TimerDiff, insert_long.
  rewrite (insert_string_unpadded new_ostringstream) by reflexivity.
  rewrite (insert_string_unpadded _ ".") by reflexivity.
  reflexivity.
Qed.

Lemma one_and_a_half_seconds :
  pretty 1 +:+ "." +:+ three_digits (500000 / 1000) = "1.500".
Proof. vm_compute. reflexivity. Qed.

(** C7.  For a normalized, non-negative interval [TimerDiff] writes the
    seconds, a dot, and the microseconds truncated to milliseconds as exactly
    three zero-padded digits; an interval of 1 s and 500000 us, that is
    1,500,000 microseconds, is written 1.500. *)
Theorem TimerDiff_format (t : Timer) :
  normalized (TimerDiffToTimeval t) ->
  TimerDiff t
    = pretty (tv_sec (TimerDiffToTimeval t)) +:+ "." +:+
      three_digits (tv_usec (TimerDiffToTimeval t) / 1000)
  /\ String.length (three_digits (tv_usec (TimerDiffToTimeval t) / 1000)) = 3%nat
  /\ (microseconds (TimerDiffToTimeval t) = 1500000 -> TimerDiff t = "1.500").
Proof.
  intros [Hsec Husec].
  assert (Hfmt : TimerDiff t
    = pretty (tv_sec (TimerDiffToTimeval t)) +:+ "." +:+
      three_digits (tv_usec (TimerDiffToTimeval t) / 1000)).
  { rewrite TimerDiff_unfold. set (d := TimerDiffToTimeval t) in *.
    assert (Hq : Z.quot (tv_usec d) 1000 = tv_usec d / 1000)
      by (apply Z.quot_div_nonneg; lia).
    assert (Hms : 0 <= tv_usec d / 1000 < 1000).
    { split; [apply Z.div_pos; lia | apply Z.div_lt_upper_bound; lia]. }
    unfold div64. rewrite Hq, wrap64_id
      by (unfold int64, INT64_MIN, INT64_MAX; lia).
    rewrite three_digits_fill by done.
    apply string_app_assoc. }
  split; [exact Hfmt | split; [reflexivity |]].
  rewrite Hfmt. clear Hfmt. revert Hsec Husec. unfold microseconds.
  generalize (TimerDiffToTimeval t). intros [sec usec]; simpl. intros Hsec Husec H15.
  assert (sec = 1) as -> by lia.
  assert (usec = 500000) as -> by lia.
  exact one_and_a_half_seconds.
Qed.

(** The theorem at a start of 10.700000 s and a stop of 12.200000 s. *)
Lemma TimerDiff_format_witness :
  TimerDiff (mk_Timer (mk_timeval 10 700000) (mk_timeval 12 200000)) = "1.500".
Proof.
  apply (TimerDiff_format (mk_Timer (mk_timeval 10 700000) (mk_timeval 12 200000))).
  - unfold normalized; vm_compute; repeat split; discriminate.
  - reflexivity.
Defined.

(** C8.  [TimerDiffToTimeval] validates nothing and always returns a pair.
    With a start of 1.500000 s and a stop of 0.000000 s both components are
    negative; for any two captured timestamps with the stop earlier than the
    start neither component is positive and the pair stands for the negative
    difference; for any contents of the two fields at all the result is
    some pair of a 64-bit seconds value and microseconds strictly between
    -1000000 and 1000000. *)
Theorem TimerDiffToTimeval_unvalidated :
  (exists t : Timer,
     captured (start_tv_ t) /\ captured (end_tv_ t) /\
     microseconds (end_tv_ t) < microseconds (start_tv_ t) /\
     tv_sec (TimerDiffToTimeval t) < 0 /\ tv_usec (TimerDiffToTimeval t) < 0)
  /\ (forall t : Timer,
        captured (start_tv_ t) -> captured (end_tv_ t) ->
        microseconds (end_tv_ t) < microseconds (start_tv_ t) ->
        tv_sec (TimerDiffToTimeval t) <= 0 /\ tv_usec (TimerDiffToTimeval t) <= 0 /\
        microseconds (TimerDiffToTimeval t)
          = microseconds (end_tv_ t) - microseconds (start_tv_ t) /\
        microseconds (TimerDiffToTimeval t) < 0)
  /\ (forall t : Timer,
        int64 (tv_sec (TimerDiffToTimeval t)) /\
        - 1000000 < tv_usec (TimerDiffToTimeval t) < 1000000).
Proof.
  split; [| split].
  - exists (mk_Timer (mk_timeval 1 500000) (mk_timeval 0 0)).
    unfold captured, microseconds, INT64_MAX. vm_compute.
    repeat split; discriminate.
  - intros t Hs He Hlt.
    pose proof (captured_int64 _ Hs) as Is. pose proof (captured_int64 _ He) as Ie.
    pose proof (captured_nonneg _ Hs) as Ns. pose proof (captured_nonneg _ He) as Ne.
    rewrite TimerDiffToTimeval_exact; try done.
    + set (d := microseconds (end_tv_ t) - microseconds (start_tv_ t)).
      assert (Hd : d < 0) by (unfold d; lia).
      unfold microseconds at 1 2; simpl.
      pose proof (Z.quot_opp_l d 1000000 ltac:(lia)).
      pose proof (Z.quot_pos (- d) 1000000 ltac:(lia) ltac:(lia)).
      pose proof (Z.rem_opp_l d 1000000 ltac:(lia)).
      pose proof (Z.rem_bound_pos (- d) 1000000 ltac:(lia) ltac:(lia)).
      pose proof (Z.quot_rem' d 1000000). lia.
    + unfold int64, INT64_MIN, INT64_MAX in *. lia.
  - intros t. unfold TimerDiffToTimeval; simpl. split; [apply wrap64_int64 |].
    unfold rem64, kMicroSecs.
    set (d := sub64 _ _).
    pose proof (Z.rem_bound_abs d 1000000 ltac:(lia)).
    rewrite wrap64_id by (unfold int64, INT64_MIN, INT64_MAX; lia). lia.
Qed.

(** The failing start and stop of the theorem, evaluated. *)
Example TimerDiffToTimeval_stop_before_start :
  TimerDiffToTimeval (mk_Timer (mk_timeval 1 500000) (mk_timeval 0 0))
    = mk_timeval (-1) (-500000)
  /\ TimerDiff (mk_Timer (mk_timeval 1 500000) (mk_timeval 0 0)) = "-1.-500".
Proof. split; vm_compute; reflexivity. Qed.

Section TimerFrame.
Variable clock : Type.
Variable gettimeofday : timeval -> option timezone -> clock -> Z * timeval * clock.

(** C10.  [StartTimer] hands [gettimeofday] the start timestamp only and
    leaves the stop timestamp as it was; [StopTimer] hands it the stop
    timestamp only and leaves the start timestamp as it was; each returns
    the return code of [gettimeofday] unchanged.  Starting a stopped timer
    again keeps the stop time that was captured. *)
Theorem StartTimer_StopTimer_frame (t : Timer) (c : clock) :
  (StartTimer clock gettimeofday t c).1.2
     = mk_Timer (gettimeofday (start_tv_ t) None c).1.2 (end_tv_ t)
  /\ (StartTimer clock gettimeofday t c).1.1 = (gettimeofday (start_tv_ t) None c).1.1
  /\ (StartTimer clock gettimeofday t c).2 = (gettimeofday (start_tv_ t) None c).2
  /\ (StopTimer clock gettimeofday t c).1.2
       = mk_Timer (start_tv_ t) (gettimeofday (end_tv_ t) None c).1.2
  /\ (StopTimer clock gettimeofday t c).1.1 = (gettimeofday (end_tv_ t) None c).1.1
  /\ (StopTimer clock gettimeofday t c).2 = (gettimeofday (end_tv_ t) None c).2
  /\ end_tv_
       (StartTimer clock gettimeofday
          (StopTimer clock gettimeofday t c).1.2
          (StopTimer clock gettimeofday t c).2).1.2
     = end_tv_ (StopTimer clock gettimeofday t c).1.2.
Proof.
  unfold StartTimer, StopTimer.
  destruct (gettimeofday (start_tv_ t) None c) as [[rc1 tv1] c1].
  destruct (gettimeofday (end_tv_ t) None c) as [[rc2 tv2] c2]. simpl.
  destruct (gettimeofday (start_tv_ t) None c2) as [[rc3 tv3] c3]. simpl.
  repeat split.
Qed.

End TimerFrame.

(** A clock that counts microseconds and fails, writing nothing, when its
    count is negative. *)
Example StartTimer_keeps_stop :
  StartTimer Z
    (fun tv _ now => if now <? 0 then (-1, tv, now)
                     else (0, mk_timeval (now / 1000000) (now mod 1000000), now + 7))
    (mk_Timer (mk_timeval 1 2) (mk_timeval 3 4)) 5000001
  = (0, mk_Timer (mk_timeval 5 1) (mk_timeval 3 4), 5000008).
Proof. reflexivity. Qed.

(** * Further properties *)

(** ** The interval, for any contents of the two timestamps *)

Lemma wrap64_sub (a b : Z) : wrap64 (wrap64 a - wrap64 b) = wrap64 (a - b).
Proof.
  unfold wrap64. f_equal.
  replace ((a + 2 ^ 63) mod 2 ^ 64 - 2 ^ 63 - ((b + 2 ^ 63) mod 2 ^ 64 - 2 ^ 63) + 2 ^ 63)
    with ((a + 2 ^ 63) mod 2 ^ 64 + (2 ^ 63 - (b + 2 ^ 63) mod 2 ^ 64)) by lia.
  rewrite Z.add_mod_idemp_l by lia.
  replace (a + 2 ^ 63 + (2 ^ 63 - (b + 2 ^ 63) mod 2 ^ 64))
    with (a + 2 ^ 63 + 2 ^ 63 - (b + 2 ^ 63) mod 2 ^ 64) by lia.
  rewrite Zminus_mod_idemp_r. f_equal. lia.
Qed.

Lemma quot_rem_int64 (d : Z) :
  int64 d -> int64 (Z.quot d 1000000) /\ int64 (Z.rem d 1000000).
Proof.
  unfold int64, INT64_MIN, INT64_MAX. intros Hd. split.
  - destruct (Z.le_gt_cases 0 d).
    + pose proof (Z.quot_pos d 1000000 ltac:(lia) ltac:(lia)).
      pose proof (Z.quot_le_upper_bound d 1000000 (2 ^ 63 - 1) ltac:(lia) ltac:(lia)).
      lia.
    + pose proof (Z.quot_opp_l d 1000000 ltac:(lia)).
      pose proof (Z.quot_pos (- d) 1000000 ltac:(lia) ltac:(lia)).
      pose proof (Z.quot_le_upper_bound (- d) 1000000 (2 ^ 63) ltac:(lia) ltac:(lia)).
      lia.
  - pose proof (Z.rem_bound_abs d 1000000 ltac:(lia)). lia.
Qed.

(** The interval is the wrapped difference of the two counts, split by
    truncating division. *)
Lemma TimerDiffToTimeval_wrapped (t : Timer) :
  TimerDiffToTimeval t
    = mk_timeval
        (Z.quot (wrap64 (microseconds (end_tv_ t) - microseconds (start_tv_ t))) 1000000)
        (Z.rem (wrap64 (microseconds (end_tv_ t) - microseconds (start_tv_ t))) 1000000).
Proof.
  unfold TimerDiffToTimeval, sub64, div64, rem64, kMicroSecs.
  rewrite !timeval2microsec_wrap, wrap64_sub.
  destruct (quot_rem_int64 _ (wrap64_int64
              (microseconds (end_tv_ t) - microseconds (start_tv_ t)))) as [Hq Hr].
  rewrite (wrap64_id (Z.quot _ _)) by exact Hq.
  rewrite (wrap64_id (Z.rem _ _)) by exact Hr.
  reflexivity.
Qed.

Lemma captured_difference_int64 (a b : timeval) :
  captured a -> captured b -> int64 (microseconds b - microseconds a).
Proof.
  intros Ha Hb.
  pose proof (captured_int64 _ Ha). pose proof (captured_int64 _ Hb).
  pose proof (captured_nonneg _ Ha). pose proof (captured_nonneg _ Hb).
  unfold int64, INT64_MIN, INT64_MAX in *. lia.
Qed.

Lemma TimerDiffToTimeval_captured (a b : timeval) :
  captured a -> captured b ->
  TimerDiffToTimeval (mk_Timer a b)
    = mk_timeval (Z.quot (microseconds b - microseconds a) 1000000)
        (Z.rem (microseconds b - microseconds a) 1000000).
Proof.
  intros Ha Hb. rewrite TimerDiffToTimeval_wrapped. simpl.
  by rewrite wrap64_id by by apply captured_difference_int64.
Qed.

Lemma microseconds_quot_rem (d : Z) :
  microseconds (mk_timeval (Z.quot d 1000000) (Z.rem d 1000000)) = d.
Proof.
  unfold microseconds; simpl. pose proof (Z.quot_rem' d 1000000). lia.
Qed.

(** X1.  Where no step of the computation overflows, also for timestamps
    the clock would not write (seconds before the Epoch, microseconds
    outside [0, 1000000)), the pair [TimerDiffToTimeval] returns stands for
    exactly the difference of the two microsecond counts, its two
    components never have opposite signs, and its microseconds are strictly
    between -1000000 and 1000000. *)
Theorem TimerDiffToTimeval_without_overflow (t : Timer) :
  no_overflow t ->
  microseconds (TimerDiffToTimeval t)
    = microseconds (end_tv_ t) - microseconds (start_tv_ t)
  /\ 0 <= tv_sec (TimerDiffToTimeval t) * tv_usec (TimerDiffToTimeval t)
  /\ Z.abs (tv_usec (TimerDiffToTimeval t)) < 1000000.
Proof.
  intros ((_ & _ & _ & Hs) & (_ & _ & _ & He) & Hd).
  rewrite TimerDiffToTimeval_exact by done.
  set (d := microseconds (end_tv_ t) - microseconds (start_tv_ t)) in *.
  rewrite microseconds_quot_rem. simpl.
  pose proof (Z.rem_bound_abs d 1000000 ltac:(lia)) as Hr.
  split; [reflexivity |]. split; [| lia].
  destruct (Z.le_gt_cases 0 d).
  - apply Z.mul_nonneg_nonneg.
    + apply Z.quot_pos; lia.
    + apply Z.rem_nonneg; lia.
  - apply Z.mul_nonpos_nonpos.
    + pose proof (Z.quot_opp_l d 1000000 ltac:(lia)).
      pose proof (Z.quot_pos (- d) 1000000 ltac:(lia) ltac:(lia)). lia.
    + pose proof (Z.rem_opp_l d 1000000 ltac:(lia)).
      pose proof (Z.rem_nonneg (- d) 1000000 ltac:(lia) ltac:(lia)). lia.
Qed.

(** The theorem from -5 s and 2500000 us to -7 s and -3 us: the interval is
    -4 s and -500003 us. *)
Lemma TimerDiffToTimeval_without_overflow_witness :
  microseconds (TimerDiffToTimeval (mk_Timer (mk_timeval (-5) 2500000) (mk_timeval (-7) (-3))))
    = -4500003
  /\ 0 <= tv_sec (TimerDiffToTimeval (mk_Timer (mk_timeval (-5) 2500000) (mk_timeval (-7) (-3))))
          * tv_usec (TimerDiffToTimeval (mk_Timer (mk_timeval (-5) 2500000) (mk_timeval (-7) (-3))))
  /\ Z.abs (tv_usec (TimerDiffToTimeval (mk_Timer (mk_timeval (-5) 2500000) (mk_timeval (-7) (-3)))))
     < 1000000.
Proof.
  apply (TimerDiffToTimeval_without_overflow
           (mk_Timer (mk_timeval (-5) 2500000) (mk_timeval (-7) (-3)))).
  unfold no_overflow, in_long, int64, microseconds, INT64_MIN, INT64_MAX; simpl. lia.
Defined.

(** X2.  For two captured timestamps with the stop not before the start,
    [TimerDiffToTimeval] is the subtraction by components, with a second
    borrowed when the stop's microseconds are the smaller ones. *)
Theorem TimerDiffToTimeval_borrow (t : Timer) :
  captured (start_tv_ t) ->
  captured (end_tv_ t) ->
  microseconds (start_tv_ t) <= microseconds (end_tv_ t) ->
  TimerDiffToTimeval t
    = if tv_usec (end_tv_ t) <? tv_usec (start_tv_ t)
      then mk_timeval (tv_sec (end_tv_ t) - tv_sec (start_tv_ t) - 1)
             (tv_usec (end_tv_ t) - tv_usec (start_tv_ t) + 1000000)
      else mk_timeval (tv_sec (end_tv_ t) - tv_sec (start_tv_ t))
             (tv_usec (end_tv_ t) - tv_usec (start_tv_ t)).
Proof.
  destruct t as [[ss su] [es eu]]; simpl. intros Hs He Hle.
  rewrite TimerDiffToTimeval_captured by done.
  unfold captured, microseconds in *; simpl in *.
  set (d := es * 1000000 + eu - (ss * 1000000 + su)) in *.
  rewrite Z.quot_div_nonneg, Z.rem_mod_nonneg by lia.
  destruct (Z.ltb_spec eu su).
  - f_equal; symmetry.
    + apply (Z.div_unique d 1000000 _ (eu - su + 1000000)); unfold d; lia.
    + apply (Z.mod_unique d 1000000 (es - ss - 1)); unfold d; lia.
  - f_equal; symmetry.
    + apply (Z.div_unique d 1000000 _ (eu - su)); unfold d; lia.
    + apply (Z.mod_unique d 1000000 (es - ss)); unfold d; lia.
Qed.

Lemma TimerDiffToTimeval_borrow_witness :
  TimerDiffToTimeval (mk_Timer (mk_timeval 10 700000) (mk_timeval 12 200000))
    = mk_timeval 1 500000.
Proof.
  apply (TimerDiffToTimeval_borrow
           (mk_Timer (mk_timeval 10 700000) (mk_timeval 12 200000)));
    unfold captured, microseconds, INT64_MAX; simpl; lia.
Defined.

(** X3.  Counting a captured timestamp in microseconds and splitting the
    count again gives the timestamp back: the interval from the zero
    timestamp to it is the timestamp itself. *)
Theorem TimerDiffToTimeval_from_zero (tv : timeval) :
  captured tv ->
  TimerDiffToTimeval (mk_Timer (mk_timeval 0 0) tv) = tv.
Proof.
  intros Htv.
  assert (H0 : captured (mk_timeval 0 0))
    by (unfold captured, microseconds, INT64_MAX; simpl; lia).
  rewrite TimerDiffToTimeval_captured by done.
  destruct tv as [sec usec]. unfold captured, microseconds in *; simpl in *.
  rewrite Z.quot_div_nonneg, Z.rem_mod_nonneg by lia.
  f_equal; symmetry.
  - apply (Z.div_unique _ 1000000 _ usec); lia.
  - apply (Z.mod_unique _ 1000000 sec); lia.
Qed.

Lemma TimerDiffToTimeval_from_zero_witness :
  TimerDiffToTimeval (mk_Timer (mk_timeval 0 0) (mk_timeval 1700000000 999999))
    = mk_timeval 1700000000 999999.
Proof.
  apply (TimerDiffToTimeval_from_zero (mk_timeval 1700000000 999999)).
  unfold captured, microseconds, INT64_MAX; simpl; lia.
Defined.

(** X4.  Exchanging two captured timestamps negates both components of the
    interval. *)
Theorem TimerDiffToTimeval_exchanged (a b : timeval) :
  captured a -> captured b ->
  TimerDiffToTimeval (mk_Timer b a)
    = mk_timeval (- tv_sec (TimerDiffToTimeval (mk_Timer a b)))
        (- tv_usec (TimerDiffToTimeval (mk_Timer a b))).
Proof.
  intros Ha Hb. rewrite !TimerDiffToTimeval_captured by done. simpl.
  replace (microseconds a - microseconds b)
    with (- (microseconds b - microseconds a)) by lia.
  by rewrite Z.quot_opp_l, Z.rem_opp_l by lia.
Qed.

Lemma TimerDiffToTimeval_exchanged_witness :
  TimerDiffToTimeval (mk_Timer (mk_timeval 12 200000) (mk_timeval 10 700000))
    = mk_timeval (-1) (-500000).
Proof.
  apply (TimerDiffToTimeval_exchanged (mk_timeval 10 700000) (mk_timeval 12 200000));
    unfold captured, microseconds, INT64_MAX; simpl; lia.
Defined.

(** X5.  Intervals between captured timestamps add up: the microseconds
    from the first to the third are those from the first to the second plus
    those from the second to the third, in whatever order the three were
    captured. *)
Theorem TimerDiffToTimeval_adds_up (a b c : timeval) :
  captured a -> captured b -> captured c ->
  microseconds (TimerDiffToTimeval (mk_Timer a c))
    = microseconds (TimerDiffToTimeval (mk_Timer a b))
      + microseconds (TimerDiffToTimeval (mk_Timer b c)).
Proof.
  intros Ha Hb Hc. rewrite !TimerDiffToTimeval_captured by done.
  rewrite !microseconds_quot_rem. lia.
Qed.

Lemma TimerDiffToTimeval_adds_up_witness :
  microseconds (TimerDiffToTimeval (mk_Timer (mk_timeval 3 900000) (mk_timeval 9 100000)))
    = microseconds (TimerDiffToTimeval (mk_Timer (mk_timeval 3 900000) (mk_timeval 20 5)))
      + microseconds (TimerDiffToTimeval (mk_Timer (mk_timeval 20 5) (mk_timeval 9 100000))).
Proof.
  apply (TimerDiffToTimeval_adds_up (mk_timeval 3 900000) (mk_timeval 20 5)
           (mk_timeval 9 100000));
    unfold captured, microseconds, INT64_MAX; simpl; lia.
Defined.

(** ** The formatted interval *)

Lemma quot_rem_small (d b : Z) :
  Z.abs d < b -> Z.quot d b = 0 /\ Z.rem d b = d.
Proof.
  intros Hd. destruct (Z.le_gt_cases 0 d).
  - split; [apply Z.quot_small | apply Z.rem_small]; lia.
  - pose proof (Z.quot_opp_l d b ltac:(lia)).
    pose proof (Z.rem_opp_l d b ltac:(lia)).
    pose proof (Z.quot_small (- d) b ltac:(lia)).
    pose proof (Z.rem_small (- d) b ltac:(lia)). lia.
Qed.

Lemma zero_seconds : pretty 0 +:+ "." +:+ three_digits 0 = "0.000".
Proof. vm_compute. reflexivity. Qed.

(** X6.  Between two captured timestamps less than a millisecond apart, in
    either order, [TimerDiff] writes 0.000: what is below a millisecond is
    cut off, and with it the sign of an interval that runs backwards. *)
Theorem TimerDiff_below_a_millisecond (t : Timer) :
  captured (start_tv_ t) ->
  captured (end_tv_ t) ->
  Z.abs (microseconds (end_tv_ t) - microseconds (start_tv_ t)) < 1000 ->
  TimerDiff t = "0.000".
Proof.
  destruct t as [a b]; simpl. intros Ha Hb Hd.
  rewrite TimerDiff_unfold, TimerDiffToTimeval_captured by done. simpl.
  set (d := microseconds b - microseconds a) in *.
  destruct (quot_rem_small d 1000000 ltac:(lia)) as [-> ->].
  unfold div64.
  destruct (quot_rem_small d 1000 Hd) as [-> _].
  rewrite wrap64_id by (unfold int64, INT64_MIN, INT64_MAX; lia).
  rewrite (three_digits_fill 0) by lia.
  rewrite string_app_assoc. exact zero_seconds.
Qed.

(** The theorem with the stop 300 microseconds before the start. *)
Lemma TimerDiff_below_a_millisecond_witness :
  TimerDiff (mk_Timer (mk_timeval 5 300) (mk_timeval 5 0)) = "0.000".
Proof.
  apply (TimerDiff_below_a_millisecond (mk_Timer (mk_timeval 5 300) (mk_timeval 5 0)));
    unfold captured, microseconds, INT64_MAX; simpl; lia.
Defined.

Lemma TimerDiff_of_normalized (t : Timer) :
  normalized (TimerDiffToTimeval t) ->
  TimerDiff t
    = pretty (tv_sec (TimerDiffToTimeval t)) +:+ "." +:+
      three_digits (tv_usec (TimerDiffToTimeval t) / 1000).
Proof.
  intros [Hsec Husec]. rewrite TimerDiff_unfold.
  set (d := TimerDiffToTimeval t) in *.
  assert (Hq : Z.quot (tv_usec d) 1000 = tv_usec d / 1000)
    by (apply Z.quot_div_nonneg; lia).
  assert (Hms : 0 <= tv_usec d / 1000 < 1000).
  { split; [apply Z.div_pos; lia | apply Z.div_lt_upper_bound; lia]. }
  unfold div64. rewrite Hq, wrap64_id by (unfold int64, INT64_MIN, INT64_MAX; lia).
  rewrite three_digits_fill by done.
  apply string_app_assoc.
Qed.

Lemma string_length_app (a b : string) :
  String.length (a +:+ b) = (String.length a + String.length b)%nat.
Proof.
  induction a as [|x a IH]; [reflexivity |].
  change (S (String.length (a +:+ b)) = S (String.length a + String.length b)).
  by rewrite IH.
Qed.

(** Two strings that end in tails of one length are equal only part by
    part. *)
Lemma string_app_inj_tail (a b x y : string) :
  String.length x = String.length y ->
  a +:+ x = b +:+ y -> a = b /\ x = y.
Proof.
  intros Hlen. revert b. induction a as [|c a IH]; intros [|c' b] Heq.
  - by split.
  - apply (f_equal String.length) in Heq.
    change ("" +:+ x) with x in Heq. rewrite string_length_app in Heq.
    simpl in Heq. lia.
  - apply (f_equal String.length) in Heq.
    change ("" +:+ y) with y in Heq. rewrite string_length_app in Heq.
    simpl in Heq. lia.
  - change (String c (a +:+ x) = String c' (b +:+ y)) in Heq.
    injection Heq as -> Heq. destruct (IH _ Heq) as [-> ->]. by split.
Qed.

Lemma digit_inj (d d' : Z) :
  0 <= d < 10 -> 0 <= d' < 10 -> digit d = digit d' -> d = d'.
Proof.
  unfold digit. intros Hd Hd' Heq.
  apply (f_equal nat_of_ascii) in Heq.
  rewrite !nat_ascii_embedding in Heq by lia. lia.
Qed.

Lemma three_digits_inj (m m' : Z) :
  0 <= m < 1000 -> 0 <= m' < 1000 -> three_digits m = three_digits m' -> m = m'.
Proof.
  unfold three_digits. intros Hm Hm' Heq.
  injection Heq as H2 H1 H0.
  pose proof (Z.div_mod m 100 ltac:(lia)). pose proof (Z.div_mod m' 100 ltac:(lia)).
  pose proof (Z.mod_pos_bound m 100 ltac:(lia)).
  pose proof (Z.mod_pos_bound m' 100 ltac:(lia)).
  pose proof (Z.div_mod m 10 ltac:(lia)). pose proof (Z.div_mod m' 10 ltac:(lia)).
  pose proof (Z.mod_pos_bound m 10 ltac:(lia)).
  pose proof (Z.mod_pos_bound m' 10 ltac:(lia)).
  pose proof (Z.div_mod (m / 10) 10 ltac:(lia)).
  pose proof (Z.div_mod (m' / 10) 10 ltac:(lia)).
  pose proof (Z.mod_pos_bound (m / 10) 10 ltac:(lia)).
  pose proof (Z.mod_pos_bound (m' / 10) 10 ltac:(lia)).
  apply digit_inj in H2; [| lia | lia].
  apply digit_inj in H1; [| lia | lia].
  apply digit_inj in H0; [| lia | lia].
  lia.
Qed.

(** X7.  On normalized intervals [TimerDiff] loses nothing but what is
    below a millisecond: two such intervals are written alike only if they
    have the same seconds and the same milliseconds. *)
Theorem TimerDiff_tells_milliseconds_apart (t t' : Timer) :
  normalized (TimerDiffToTimeval t) ->
  normalized (TimerDiffToTimeval t') ->
  TimerDiff t = TimerDiff t' ->
  tv_sec (TimerDiffToTimeval t) = tv_sec (TimerDiffToTimeval t') /\
  tv_usec (TimerDiffToTimeval t) / 1000 = tv_usec (TimerDiffToTimeval t') / 1000.
Proof.
  intros Hn Hn' Heq.
  rewrite !TimerDiff_of_normalized in Heq by done.
  revert Hn Hn' Heq.
  generalize (TimerDiffToTimeval t), (TimerDiffToTimeval t').
  intros [sec usec] [sec' usec'] [Hsec Husec] [Hsec' Husec']; simpl in *. intros Heq.
  rewrite <- !string_app_assoc in Heq.
  apply string_app_inj_tail in Heq; [| reflexivity].
  destruct Heq as [Hseconds Hmillis].
  apply string_app_inj_tail in Hseconds; [| reflexivity].
  destruct Hseconds as [Hseconds _].
  split.
  - by apply (inj pretty).
  - apply three_digits_inj; [| | exact Hmillis].
    + split; [apply Z.div_pos; lia | apply Z.div_lt_upper_bound; lia].
    + split; [apply Z.div_pos; lia | apply Z.div_lt_upper_bound; lia].
Qed.

(** The theorem where both intervals are 1.500 s and a little. *)
Lemma TimerDiff_tells_milliseconds_apart_witness :
  tv_sec (TimerDiffToTimeval (mk_Timer (mk_timeval 10 700000) (mk_timeval 12 200000)))
    = tv_sec (TimerDiffToTimeval (mk_Timer (mk_timeval 3 100) (mk_timeval 4 500999))) /\
  tv_usec (TimerDiffToTimeval (mk_Timer (mk_timeval 10 700000) (mk_timeval 12 200000))) / 1000
    = tv_usec (TimerDiffToTimeval (mk_Timer (mk_timeval 3 100) (mk_timeval 4 500999))) / 1000.
Proof.
  apply (TimerDiff_tells_milliseconds_apart
           (mk_Timer (mk_timeval 10 700000) (mk_timeval 12 200000))
           (mk_Timer (mk_timeval 3 100) (mk_timeval 4 500999))).
  - unfold normalized; vm_compute; repeat split; discriminate.
  - unfold normalized; vm_compute; repeat split; discriminate.
  - vm_compute. reflexivity.
Defined.

(** ** Starting, stopping and reading a timer *)

Section TimerRun.
Variable clock : Type.
Variable gettimeofday : timeval -> option timezone -> clock -> Z * timeval * clock.

(** X8.  After [StartTimer] and then [StopTimer] the interval is the one
    between the two timestamps the clock wrote, whatever the timer held
    before and whatever the clock wrote; when the clock wrote two captured
    timestamps with the second not before the first, it is a valid
    (seconds, microseconds) pair. *)
Theorem StartTimer_StopTimer_TimerDiffToTimeval (t : Timer) (c : clock) :
  TimerDiffToTimeval
    (StopTimer clock gettimeofday
       (StartTimer clock gettimeofday t c).1.2
       (StartTimer clock gettimeofday t c).2).1.2
  = TimerDiffToTimeval
      (mk_Timer (gettimeofday (start_tv_ t) None c).1.2
         (gettimeofday (end_tv_ t) None (gettimeofday (start_tv_ t) None c).2).1.2)
  /\ (captured (gettimeofday (start_tv_ t) None c).1.2 ->
      captured (gettimeofday (end_tv_ t) None (gettimeofday (start_tv_ t) None c).2).1.2 ->
      microseconds (gettimeofday (start_tv_ t) None c).1.2
        <= microseconds
             (gettimeofday (end_tv_ t) None (gettimeofday (start_tv_ t) None c).2).1.2 ->
      normalized
        (TimerDiffToTimeval
           (StopTimer clock gettimeofday
              (StartTimer clock gettimeofday t c).1.2
              (StartTimer clock gettimeofday t c).2).1.2)).
Proof.
  unfold StartTimer, StopTimer.
  destruct (gettimeofday (start_tv_ t) None c) as [[rc1 tv1] c1]; simpl.
  destruct (gettimeofday (end_tv_ t) None c1) as [[rc2 tv2] c2]; simpl.
  split; [reflexivity |]. intros H1 H2 Hle.
  rewrite TimerDiffToTimeval_captured by done.
  set (d := microseconds tv2 - microseconds tv1).
  assert (0 <= d) by (unfold d; lia).
  unfold normalized; simpl.
  pose proof (Z.quot_pos d 1000000 ltac:(lia) ltac:(lia)).
  pose proof (Z.rem_bound_pos d 1000000 ltac:(lia) ltac:(lia)). lia.
Qed.

End TimerRun.

(** The theorem on a clock that counts microseconds, seven to a call,
    started at 5.000001 s on a timer that held other timestamps. *)
Lemma StartTimer_StopTimer_TimerDiffToTimeval_witness :
  normalized
    (TimerDiffToTimeval
       (StopTimer Z
          (fun _ _ now => (0, mk_timeval (now / 1000000) (now mod 1000000), now + 7))
          (StartTimer Z
             (fun _ _ now => (0, mk_timeval (now / 1000000) (now mod 1000000), now + 7))
             (mk_Timer (mk_timeval 1 2) (mk_timeval 3 4)) 5000001).1.2
          (StartTimer Z
             (fun _ _ now => (0, mk_timeval (now / 1000000) (now mod 1000000), now + 7))
             (mk_Timer (mk_timeval 1 2) (mk_timeval 3 4)) 5000001).2).1.2).
Proof.
  apply (proj2 (StartTimer_StopTimer_TimerDiffToTimeval Z
           (fun _ _ now => (0, mk_timeval (now / 1000000) (now mod 1000000), now + 7))
           (mk_Timer (mk_timeval 1 2) (mk_timeval 3 4)) 5000001));
    vm_compute; repeat split; discriminate.
Defined.

(** ** The exception messages *)


(** ** The guard's two messages *)

Section GuardMessages.
Context `{E : External}.

(** X10.  When both overloads of [cf_assert] fail, with the same message,
    they throw exceptions of the same class.  The stored string of the one
    thrown with a node is the stored string of the other followed by the
    text of the node.  Read through [what()], the text of the node follows
    only when the message has no NUL; after a NUL in the message both texts
    are the same and the node is not in them. *)
Theorem cf_assert_node_appends_text (message : string) (node : TSNode)
    (text : string) (s : state) :
  ts_node_string node (outside s) = Some text ->
  exists e e' s',
    cf_assert false message s = Throws e s /\
    cf_assert_node false message node s = Throws e' s' /\
    exception_class e' = exception_class e /\
    message_ e' = message_ e +:+ text /\
    what e' = if has_nul message then what e else what e +:+ c_str text.
Proof.
  intros Htext.
  exists (cf_unexpected_situation message),
         (cf_unexpected_situation (message +:+ text)),
         (mk_state (outside s) (calls s ++ [call_ts_node_string node])).
  split; [reflexivity |]. split.
  - unfold cf_assert_node, bind. rewrite extern_read_unfold, Htext. reflexivity.
  - split; [reflexivity |]. split.
    + unfold cf_unexpected_situation; simpl. symmetry. apply string_app_assoc.
    + rewrite !what_cf_unexpected_situation, c_str_app.
      destruct (has_nul message) eqn:Hnul; [reflexivity |].
      rewrite (c_str_without_nul message) by done. symmetry. apply string_app_assoc.
Qed.

End GuardMessages.

(** The theorem in the small world, on a node of a tree that is allocated. *)
Lemma cf_assert_node_appends_text_witness :
  exists e e' s',
    cf_assert false "unexpected: "
      (@mk_state demo (mk_demo_world {[ 1%positive := "a+b" ]} ∅ 2) []) = Throws e
      (@mk_state demo (mk_demo_world {[ 1%positive := "a+b" ]} ∅ 2) []) /\
    cf_assert_node false "unexpected: " (ts_node 1 43 1 [])
      (@mk_state demo (mk_demo_world {[ 1%positive := "a+b" ]} ∅ 2) []) = Throws e' s' /\
    exception_class e' = exception_class e /\
    message_ e' = message_ e +:+ "(43)" /\
    what e' = what e +:+ "(43)".
Proof.
  apply (cf_assert_node_appends_text (E := demo) "unexpected: " (ts_node 1 43 1 []) "(43)"
           (@mk_state demo (mk_demo_world {[ 1%positive := "a+b" ]} ∅ 2) [])).
  vm_compute. reflexivity.
Defined.

(** ** Moving and releasing a managed tree *)

Section Moved.
Context `{E : External}.

(** X11.  Moving a managed tree neither doubles nor loses the deletion:
    destroying the holder moved to and the holder moved from, in either
    order, does what destroying the original holder once does.  After
    [release()] a destruction deletes nothing, whatever the holder held. *)
Theorem ManagedTSTree_moved_deleted_once (p : ManagedTSTree) (s : state) :
  (_ <- destroy (move p).1 ;; destroy (move p).2) s = destroy p s
  /\ (_ <- destroy (move p).2 ;; destroy (move p).1) s = destroy p s
  /\ (release p).1 = get p
  /\ destroy (release p).2 s = Returns (unique_ptr None) s.
Proof.
  unfold bind, move, release; simpl.
  repeat rewrite destroy_unfold; simpl.
  destruct (get p) as [t|]; simpl.
  - destruct (ts_tree_delete (Some t) (outside s)) as [w|] eqn:Hw;
      repeat rewrite destroy_unfold; simpl; rewrite ?Hw; by repeat split.
  - repeat rewrite destroy_unfold; simpl. by repeat split.
Qed.

End Moved.
